(** * MadAssistantDuet: the [ResetCharacterPosition] action and the installer

    A shallow embedding of [agent/common.py] and [install.py].

    The action talks to the host framework (screen capture, recognition,
    input injection), to [time.sleep] and to the logger.  Each of these is an
    effect: the embedding threads the history of effects performed so far and
    returns, next to the Python result or the raised exception, the effects
    the computation added.  The framework, [json.loads] and [time.sleep] are
    not part of the repository; they are the fields of a [world]. *)

From Stdlib Require Import ZArith Lia.
From stdpp Require Import gmap strings list fin_maps.

Open Scope Z_scope.

(** ** Python values *)

(** The values [json.loads] / [jsonc.load] produce.  A float is kept as its
    IEEE-754 binary64 bit pattern: the code never computes on one except by
    handing it to [time.sleep]. *)
#[warnings="-register-all"]
Inductive pyval : Type :=
  | PNone
  | PBool (b : bool)
  | PInt (z : Z)
  | PFloat (bits : N)
  | PStr (s : string)
  | PList (l : list pyval)
  | PDict (d : gmap string pyval).

(** Exceptions deriving from [Exception] (what [except Exception] catches). *)
Inductive exn : Type :=
  | TypeError
  | ValueError
  | AttributeError
  | OverflowError
  | JSONDecodeError
  | FileNotFoundError
  | RuntimeError
  | HostError (code : nat).

Inductive result (A : Type) : Type :=
  | Ret (a : A)
  | Raise (e : exn).
Arguments Ret {A} a.
Arguments Raise {A} e.

(** [bool] is a subclass of [int]: the values usable as an integer. *)
Definition as_int (v : pyval) : option Z :=
  match v with
  | PInt z => Some z
  | PBool b => Some (if b then 1 else 0)
  | _ => None
  end.

(** [range(lo, hi)] *)
Definition py_range (lo hi : Z) : list Z :=
  map (fun i : nat => lo + Z.of_nat i) (seq 0 (Z.to_nat (hi - lo))).

(** ** Effects *)

Record rect : Type := Rect { rx : Z; ry : Z; rw : Z; rh : Z }.

(** [RecognitionDetail]: only its optional [box] is read.  The result
    object and the box, when there, are objects that count as true. *)
Record reco_detail : Type := RecoDetail { box : option rect }.

(** Calls into the framework.  [CReco node override] is
    [context.run_recognition(node, image, pipeline_override=...)], where
    [override = Some tp] stands for [{node: {"template": tp}}] and [None] for
    the empty override. *)
Inductive call : Type :=
  | CClickKey (key : Z)
  | CScreencap
  | CCachedImage
  | CReco (node : string) (override : option pyval)
  | CClick (x y : Z).

Inductive reply : Type :=
  | Returned
  | Raised (e : exn)
  | Recognised (r : option reco_detail).

Inductive level : Type := Info | Warning | Error.

(** The logger's messages, by call site. *)
Inductive msg : Type :=
  | MRule
  | MRunStart
  | MParam (name : string) (v : pyval)
  | MRunDone
  | MRunFailed (e : exn)
  | MStep (k : nat)
  | MDebug (finished : bool)
  | MKeyPressed (wait : pyval)
  | MStepFailed (k : nat) (e : exn)
  | MAttempt (k : nat) (attempt : Z)
  | MNotFound (k : nat) (attempt : Z)
  | MWaitRetry (k : nat)
  | MMaxRetries (k : nat)
  | MFound (k : nat) (b : rect)
  | MClicked (k : nat)
  | MAttemptFailed (k : nat) (attempt : Z) (e : exn).

Inductive event : Type :=
  | ELog (lvl : level) (m : msg)
  | ECall (c : call) (r : reply)
  | ESleep (ms : pyval).

(** What the code does not define.  The framework answers a call knowing
    everything that happened before it. *)
Record world : Type := World {
  (** [json.loads] *)
  json_loads : string -> result pyval;
  (** what [time.sleep(ms / 1000.0)] raises, if it does not complete *)
  sleep_exn : pyval -> option exn;
  (** whether a framework call raises *)
  host_exn : list event -> call -> option exn;
  (** what [run_recognition] returns when it does not raise *)
  host_reco : list event -> string -> option pyval -> option reco_detail
}.

(** ** The effect monad *)

(** A computation reads the past and returns its outcome with the events it
    added. *)
Definition M (A : Type) : Type := list event -> result A * list event.

Definition ret {A} (a : A) : M A := fun _ => (Ret a, []).

Definition raise {A} (e : exn) : M A := fun _ => (Raise e, []).

Definition bind {A B} (m : M A) (f : A -> M B) : M B :=
  fun past =>
    match m past with
    | (Ret a, d) => let '(r, d') := f a (past ++ d) in (r, d ++ d')
    | (Raise e, d) => (Raise e, d)
    end.

(** [try: m  except Exception as e: handler e] *)
Definition try_except {A} (m : M A) (handler : exn -> M A) : M A :=
  fun past =>
    match m past with
    | (Ret a, d) => (Ret a, d)
    | (Raise e, d) => let '(r, d') := handler e (past ++ d) in (r, d ++ d')
    end.

Definition emit (e : event) : M unit := fun _ => (Ret tt, [e]).

Notation "'let*' x ':=' m 'in' k" := (bind m (fun x => k))
  (at level 10, x name, m at level 100, k at level 200).
Notation "m '>>' k" := (bind m (fun _ => k))
  (at level 100, k at level 200, right associativity).

Definition outcome {A} (x : result A * list event) : result A := fst x.
Definition added {A} (x : result A * list event) : list event := snd x.

(** ** [agent/common.py] *)

Module Agent.

Definition default_template : string := "common/其他.png".

Section Action.

Variable w : world.

Definition log (lvl : level) (m : msg) : M unit := emit (ELog lvl m).

(** A framework call that returns nothing of interest. *)
Definition invoke (c : call) : M unit :=
  fun past =>
    match host_exn w past c with
    | Some e => (Raise e, [ECall c (Raised e)])
    | None => (Ret tt, [ECall c Returned])
    end.

(** [context.run_recognition(node, image, pipeline_override)] *)
Definition run_recognition (node : string) (override : option pyval)
  : M (option reco_detail) :=
  fun past =>
    match host_exn w past (CReco node override) with
    | Some e => (Raise e, [ECall (CReco node override) (Raised e)])
    | None =>
        let r := host_reco w past node override in
        (Ret r, [ECall (CReco node override) (Recognised r)])
    end.

(** [time.sleep(ms / 1000.0)]: a [TypeError] from the division, a
    [ValueError] or [OverflowError] from [time.sleep], or a completed sleep. *)
Definition sleep_ms (ms : pyval) : M unit :=
  match sleep_exn w ms with
  | None => emit (ESleep ms)
  | Some e => raise e
  end.

(** The parameter bag of one invocation. *)
Record params : Type := Params {
  template_path : pyval;
  wait_delay : pyval;
  retry_times : pyval;
  retry_interval : pyval
}.

(** [run], lines 48-53: the mapping the parameters are read from. *)
Definition load_params (custom_action_param : pyval)
  : result (gmap string pyval) :=
  match custom_action_param with
  | PStr s =>
      match json_loads w s with
      | Ret (PDict d) => Ret d
      | Ret _ => Raise AttributeError   (* [params.get] on a non-mapping *)
      | Raise e => Raise e
      end
  | PDict d => Ret d
  | _ => Ret ∅
  end.

(** [params.get(key, dflt)] *)
Definition get (d : gmap string pyval) (key : string) (dflt : pyval) : pyval :=
  default dflt (d !! key).

(** [run], lines 56-59 *)
Definition read_params (d : gmap string pyval) : params :=
  {| template_path := get d "template_path" (PStr default_template);
     wait_delay := get d "wait_delay" (PInt 500);
     retry_times := get d "retry_times" (PInt 10);
     retry_interval := get d "retry_interval" (PInt 500) |}.

Definition lift {A} (r : result A) : M A := fun _ => (r, []).

(** [_step1_press_esc] *)
Definition _step1_press_esc (wait_delay : pyval) : M bool :=
  log Info (MStep 1) >>
  try_except
    (log Info (MDebug false) >>
     invoke (CClickKey 27) >>
     log Info (MDebug true) >>
     log Info (MKeyPressed wait_delay) >>
     sleep_ms wait_delay >>
     invoke CScreencap >>
     ret true)
    (fun e => log Error (MStepFailed 1 e) >> ret false).

(** How one iteration of a [for] loop ends: by falling through or [continue]
    ([Next]), or by [return b]. *)
Inductive flow : Type :=
  | Next
  | Return (b : bool).

(** [not reco_result or not reco_result.box or reco_result.box.w == 0]: the
    box to click, if the test is false. *)
Definition found (r : option reco_detail) : option rect :=
  match r with
  | Some {| box := Some b |} => if rw b =? 0 then None else Some b
  | _ => None
  end.

(** What distinguishes steps 2 to 5, whose bodies are otherwise the same
    text: the step number (for the log), the pipeline node, the override
    handed to the recognition, and step 5's extra [time.sleep(0.1)]. *)
Record step_cfg : Type := StepCfg {
  step_no : nat;
  node : string;
  override : option pyval;
  settle : bool
}.

Section RetryStep.

Variable cfg : step_cfg.
Variables wait_delay retry_interval : pyval.
(** [retry_times], an integer once [range(1, retry_times + 1)] went through *)
Variable retry_times : Z.

(** The body of the [try] of one attempt. *)
Definition attempt_body (attempt : Z) : M flow :=
  log Info (MAttempt (step_no cfg) attempt) >>
  invoke CScreencap >>
  invoke CCachedImage >>
  let* reco_result := run_recognition (node cfg) (override cfg) in
  match found reco_result with
  | None =>
      log Warning (MNotFound (step_no cfg) attempt) >>
      if attempt <? retry_times then
        log Info (MWaitRetry (step_no cfg)) >>
        sleep_ms retry_interval >>
        ret Next
      else
        log Error (MMaxRetries (step_no cfg)) >>
        ret (Return false)
  | Some b =>
      log Info (MFound (step_no cfg) b) >>
      let click_x := rx b + rw b / 2 in
      let click_y := ry b + rh b / 2 in
      invoke (CClick click_x click_y) >>
      log Info (MClicked (step_no cfg)) >>
      sleep_ms wait_delay >>
      invoke CScreencap >>
      (* step 5: [time.sleep(0.1)], a constant the clock takes *)
      (if settle cfg then emit (ESleep (PInt 100)) else ret tt) >>
      ret (Return true)
  end.

(** One iteration: the [try] with its [except Exception] handler. *)
Definition attempt_once (attempt : Z) : M flow :=
  try_except (attempt_body attempt)
    (fun e =>
       log Error (MAttemptFailed (step_no cfg) attempt e) >>
       if attempt <? retry_times then sleep_ms retry_interval >> ret Next
       else ret (Return false)).

(** [for attempt in ...: ...] followed by the final [return False] *)
Fixpoint for_attempts (attempts : list Z) : M bool :=
  match attempts with
  | [] => ret false
  | attempt :: rest =>
      let* f := attempt_once attempt in
      match f with
      | Next => for_attempts rest
      | Return b => ret b
      end
  end.

End RetryStep.

(** The common text of [_step2_click_settings], [_step3_click_other],
    [_step4_click_reset_character] and [_step5_click_confirm].  In
    [range(1, retry_times + 1)] the [+] needs a number and [range] an
    integer; both stand outside the [try]. *)
Definition retry_step (cfg : step_cfg)
    (wait_delay retry_times retry_interval : pyval) : M bool :=
  log Info (MStep (step_no cfg)) >>
  match as_int retry_times with
  | Some n => for_attempts cfg wait_delay retry_interval n (py_range 1 (n + 1))
  | None => raise TypeError
  end.

Definition _step2_click_settings :=
  retry_step (StepCfg 2 "OCR_Settings" None false).

(** The override is passed only for a template other than the default. *)
Definition template_override (template_path : pyval) : option pyval :=
  match template_path with
  | PStr s => if String.eqb s default_template then None else Some template_path
  | _ => Some template_path
  end.

Definition _step3_click_other (template_path : pyval) :=
  retry_step (StepCfg 3 "Template_Other" (template_override template_path) false).

Definition _step4_click_reset_character :=
  retry_step (StepCfg 4 "OCR_ResetCharacter" None false).

Definition _step5_click_confirm :=
  retry_step (StepCfg 5 "OCR_Confirm" None true).

(** The five steps as [run] calls them. *)
Definition step (p : params) (k : nat) : M bool :=
  match k with
  | 1%nat => _step1_press_esc (wait_delay p)
  | 2%nat => _step2_click_settings (wait_delay p) (retry_times p) (retry_interval p)
  | 3%nat => _step3_click_other (template_path p) (wait_delay p) (retry_times p) (retry_interval p)
  | 4%nat => _step4_click_reset_character (wait_delay p) (retry_times p) (retry_interval p)
  | 5%nat => _step5_click_confirm (wait_delay p) (retry_times p) (retry_interval p)
  | _ => ret false
  end.

Definition log_header (p : params) : M unit :=
  log Info MRule >>
  log Info MRunStart >>
  log Info (MParam "template_path" (template_path p)) >>
  log Info (MParam "wait_delay" (wait_delay p)) >>
  log Info (MParam "retry_times" (retry_times p)) >>
  log Info (MParam "retry_interval" (retry_interval p)) >>
  log Info MRule.

(** The body of [run]'s [try], after the parameters are read. *)
Definition run_steps (p : params) : M bool :=
  let* ok1 := _step1_press_esc (wait_delay p) in
  if negb ok1 then ret false else
  let* ok2 := _step2_click_settings (wait_delay p) (retry_times p) (retry_interval p) in
  if negb ok2 then ret false else
  let* ok3 := _step3_click_other (template_path p) (wait_delay p) (retry_times p) (retry_interval p) in
  if negb ok3 then ret false else
  let* ok4 := _step4_click_reset_character (wait_delay p) (retry_times p) (retry_interval p) in
  if negb ok4 then ret false else
  let* ok5 := _step5_click_confirm (wait_delay p) (retry_times p) (retry_interval p) in
  if negb ok5 then ret false else
  log Info MRunDone >>
  log Info MRule >>
  ret true.

(** [ResetCharacterPosition.run], on [argv.custom_action_param] *)
Definition run (custom_action_param : pyval) : M bool :=
  try_except
    (let* d := lift (load_params custom_action_param) in
     let p := read_params d in
     log_header p >>
     run_steps p)
    (fun e => log Error (MRunFailed e) >> ret false).

End Action.

End Agent.

(** ** [install.py] *)

Module Install.

(** [len(sys.argv) > 1 and sys.argv[1] or "v0.0.1"]: [and] gives its second
    operand when the first is true, [or] its second when the first is falsy,
    and a string is falsy when it is empty. *)
Definition version (argv : list string) : string :=
  if (1 <? length argv)%nat then
    match argv !! 1%nat with
    | Some arg => if String.eqb arg EmptyString then "v0.0.1" else arg
    | None => "v0.0.1"
    end
  else "v0.0.1".

(** What [install.py] imports: [jsonc] and the repository's
    [configure.configure_ocr_model], which is not among the sources. *)
Record env : Type := Env {
  jsonc_load : string -> result pyval;
  jsonc_dump : pyval -> string;
  configure_ocr_model : gmap string string -> result (gmap string string)
}.

(** The files below [working_dir] are a map from relative paths to
    contents; a directory is there when a file lies under it.  [under] gives
    [path] relative to [dir], when it lies under it. *)
Definition under (dir path : string) : option string :=
  if String.prefix (dir +:+ "/") path
  then Some (String.substring (String.length dir + 1)
               (String.length path - (String.length dir + 1)) path)
  else None.

(** [shutil.copytree(src, dst, dirs_exist_ok=True)] *)
Definition copytree (src dst : string) (fs : gmap string string)
  : result (gmap string string) :=
  let copied :=
    omap (fun file : string * string =>
            match under src file.1 with
            | Some rest => Some (dst +:+ "/" +:+ rest, file.2)
            | None => None
            end) (map_to_list fs) in
  match copied with
  | [] => Raise FileNotFoundError
  | _ => Ret (list_to_map copied ∪ fs)
  end.

(** [shutil.copy2(src, dst)], [dst] being the path of the copy *)
Definition copy2 (src dst : string) (fs : gmap string string)
  : result (gmap string string) :=
  match fs !! src with
  | Some text => Ret (<[dst := text]> fs)
  | None => Raise FileNotFoundError
  end.

(** [interface[key] = value] *)
Definition set_item (interface : pyval) (key : string) (value : pyval)
  : result pyval :=
  match interface with
  | PDict d => Ret (PDict (<[key := value]> d))
  | _ => Raise TypeError
  end.

Definition and_then {A B} (r : result A) (k : A -> result B) : result B :=
  match r with
  | Ret a => k a
  | Raise e => Raise e
  end.

Notation "'try!' x ':=' r 'in' k" := (and_then r (fun x => k))
  (at level 10, x name, r at level 100, k at level 200).

(** [install_resource] *)
Definition install_resource (E : env) (argv : list string)
    (fs : gmap string string) : result (gmap string string) :=
  try! fs := configure_ocr_model E fs in
  try! fs := copytree "assets/resource" "install/resource" fs in
  try! fs := copy2 "assets/interface.json" "install/interface.json" fs in
  try! text := from_option Ret (Raise FileNotFoundError)
                 (fs !! "install/interface.json") in
  try! interface := jsonc_load E text in
  try! interface := set_item interface "version" (PStr (version argv)) in
  Ret (<["install/interface.json" := jsonc_dump E interface]> fs).

End Install.

(** ** Reading a run *)

(** [post m Q]: whatever happened before, [Q] holds of the outcome of [m]
    and of the events it adds. *)
Definition post {A} (m : M A) (Q : result A -> list event -> Prop) : Prop :=
  forall past, Q (outcome (m past)) (added (m past)).

Fixpoint count (f : event -> bool) (d : list event) : nat :=
  match d with
  | [] => 0
  | e :: d' => (if f e then 1 else 0) + count f d'
  end.

Definition is_reco (e : event) : bool :=
  match e with ECall (CReco _ _) _ => true | _ => false end.

Definition is_click (e : event) : bool :=
  match e with ECall (CClick _ _) _ => true | _ => false end.

Definition is_attempt (e : event) : bool :=
  match e with ELog _ (MAttempt _ _) => true | _ => false end.


(** The steps that were entered, in the order of their first log line. *)
Fixpoint step_marks (d : list event) : list nat :=
  match d with
  | [] => []
  | ELog _ (MStep k) :: d' => k :: step_marks d'
  | _ :: d' => step_marks d'
  end.

(** Steps chained with an exit on the first failure: [run]'s body is
    [chain] over its five steps ([run_steps_chain]). *)
Fixpoint chain (steps : list (M bool)) (finish : M bool) : M bool :=
  match steps with
  | [] => finish
  | s :: rest => let* ok := s in if negb ok then ret false else chain rest finish
  end.

(** The past in which the step of index [j] (from 0) starts, when the steps
    before it have run one after the other from [past]. *)
Fixpoint reached (steps : list (M bool)) (past : list event) (j : nat)
  : list event :=
  match j, steps with
  | S j', s :: rest => reached rest (past ++ added (s past)) j'
  | _, _ => past
  end.



(** The three ways a recognition and a click go together in the events of
    step [k]: a recognition that found a box is followed by its log line and
    by the click at the centre of the box; a click comes two events after
    such a recognition; a recognition that found nothing is followed by the
    warning. *)
Definition click_follows (k : nat) (d : list event) : Prop :=
  forall (i : nat) nd ov r b,
    d !! i = Some (ECall (CReco nd ov) (Recognised r)) ->
    Agent.found r = Some b ->
    d !! S i = Some (ELog Info (MFound k b)) /\
    exists rep,
      d !! S (S i) = Some (ECall (CClick (rx b + rw b / 2) (ry b + rh b / 2)) rep).

Definition click_justified (d : list event) : Prop :=
  forall (i : nat) x y rep,
    d !! i = Some (ECall (CClick x y) rep) ->
    exists (j : nat) nd ov r b,
      i = S (S j) /\
      d !! j = Some (ECall (CReco nd ov) (Recognised r)) /\
      Agent.found r = Some b /\
      x = rx b + rw b / 2 /\ y = ry b + rh b / 2.

Definition miss_logged (k : nat) (d : list event) : Prop :=
  forall (i : nat) nd ov r,
    d !! i = Some (ECall (CReco nd ov) (Recognised r)) ->
    Agent.found r = None ->
    exists a, d !! S i = Some (ELog Warning (MNotFound k a)).

(** No recognition among the events found its target. *)
Definition missed (e : event) : Prop :=
  match e with
  | ECall (CReco _ _) (Recognised r) => Agent.found r = None
  | _ => True
  end.

Definition all_miss (d : list event) : Prop := Forall missed d.

Definition missedb (e : event) : bool :=
  match e with
  | ECall (CReco _ _) (Recognised r) =>
      match Agent.found r with None => true | Some _ => false end
  | _ => true
  end.

(** [run]'s five steps, in the order of the calls. *)
Definition the_steps (w : world) (p : Agent.params) : list (M bool) :=
  map (Agent.step w p) [1; 2; 3; 4; 5]%nat.

(** The lines [run] logs before the first step. *)
Definition header (p : Agent.params) : list event :=
  [ELog Info MRule; ELog Info MRunStart;
   ELog Info (MParam "template_path" (Agent.template_path p));
   ELog Info (MParam "wait_delay" (Agent.wait_delay p));
   ELog Info (MParam "retry_times" (Agent.retry_times p));
   ELog Info (MParam "retry_interval" (Agent.retry_interval p));
   ELog Info MRule].

(** What [run] does after the fifth step. *)
Definition finish : M bool :=
  Agent.log Info MRunDone >> Agent.log Info MRule >> ret true.


(** ** Worlds to run the action in *)

Module Worlds.

(** [time.sleep(ms / 1000.0)]: the division wants a number; a negative
    duration is refused ([ValueError: sleep length must be non-negative]), as
    is one that does not fit the clock's 63 bits of nanoseconds
    ([OverflowError]).  For a float the bit pattern is compared with that of
    9223372036854.0, the sign bit and the patterns of infinity and NaN. *)
Definition py_sleep (ms : pyval) : option exn :=
  match ms with
  | PInt z =>
      if z <? 0 then Some ValueError
      else if 9223372036854 <? z then Some OverflowError
      else None
  | PBool _ => None
  | PFloat bits =>
      if (bits <=? 4801055969632447488)%N || (bits =? 2 ^ 63)%N then None
      else if (bits <=? 9218868437227405312)%N then Some OverflowError
      else Some ValueError
  | _ => Some TypeError
  end.

(** [json.loads] restricted to three documents. *)
Definition json_table (s : string) : result pyval :=
  if String.eqb s "{}" then Ret (PDict ∅)
  else if String.eqb s "[]" then Ret (PList [])
  else if String.eqb s "null" then Ret PNone
  else Raise JSONDecodeError.

(** The screen never shows what is looked for. *)
Definition blank : world :=
  {| json_loads := json_table;
     sleep_exn := py_sleep;
     host_exn := fun _ _ => None;
     host_reco := fun _ _ _ => None |}.

(** Every recognition finds the box (100, 40, 31, 21). *)
Definition ready : world :=
  {| json_loads := json_table;
     sleep_exn := py_sleep;
     host_exn := fun _ _ => None;
     host_reco := fun _ _ _ => Some (RecoDetail (Some (Rect 100 40 31 21))) |}.


(** A [jsonc] that knows one manifest (written here without its quotes) and
    prints the version it is given; [configure_ocr_model] changes nothing. *)
Definition packer : Install.env :=
  {| Install.jsonc_load := fun text =>
       if String.eqb text "{name: MaaDuet}"
       then Ret (PDict {[ "name" := PStr "MaaDuet" ]})
       else Raise JSONDecodeError;
     Install.jsonc_dump := fun v =>
       match v with
       | PDict d =>
           match d !! "version" with
           | Some (PStr s) => "{name: MaaDuet, version: " +:+ s +:+ "}"
           | _ => "{name: MaaDuet}"
           end
       | _ => "null"
       end;
     Install.configure_ocr_model := Ret |}.

(** The default parameters. *)
Definition defaults : Agent.params := Agent.read_params ∅.

(** A retry interval of -1 ms with two attempts allowed. *)
Definition hasty : Agent.params :=
  Agent.read_params {[ "retry_times" := PInt 2; "retry_interval" := PInt (-1) ]}.

Definition checkout : gmap string string :=
  {[ "assets/interface.json" := "{name: MaaDuet}";
     "assets/resource/pipeline/resetPosition.json" := "{}" ]}.

End Worlds.

(** * Verification *)

(** ** Laws of the effect monad *)

Section Laws.

Context {A B : Type}.

Lemma bind_ret (a : A) (f : A -> M B) past : bind (ret a) f past = f a past.
Proof. unfold bind, ret. rewrite app_nil_r. by destruct (f a past). Qed.

Lemma bind_lift_Ret (a : A) (f : A -> M B) past :
  bind (Agent.lift (Ret a)) f past = f a past.
Proof. apply bind_ret. Qed.

Lemma bind_lift_Raise e (f : A -> M B) past :
  bind (Agent.lift (Raise e)) f past = (Raise e, []).
Proof. reflexivity. Qed.

(** The outcome and the events of [bind], by what [m] does. *)
Lemma bind_Ret (m : M A) (f : A -> M B) past a d :
  m past = (Ret a, d) ->
  bind m f past = (outcome (f a (past ++ d)), d ++ added (f a (past ++ d))).
Proof. intros H. unfold bind. rewrite H. by destruct (f a (past ++ d)). Qed.

End Laws.

Lemma bind_emit {B} e (f : unit -> M B) past :
  bind (emit e) f past = (outcome (f tt (past ++ [e])), e :: added (f tt (past ++ [e]))).
Proof. by apply (bind_Ret (emit e) f past tt [e]). Qed.

(** ** Rules for [post] *)

Section Rules.

Context {A B : Type}.

Lemma post_ret (a : A) Q : Q (Ret a) [] -> post (ret a) Q.
Proof. by intros H past. Qed.

Lemma post_raise e (Q : result A -> list event -> Prop) :
  Q (Raise e) [] -> post (raise e) Q.
Proof. by intros H past. Qed.

Lemma post_bind (m : M A) (f : A -> M B) Q :
  post m (fun r d => match r with
                     | Ret a => post (f a) (fun r' d' => Q r' (d ++ d'))
                     | Raise e => Q (Raise e) d
                     end) ->
  post (bind m f) Q.
Proof.
  intros H past. specialize (H past). unfold bind.
  destruct (m past) as [[a|e] d]; cbn in *; [|done].
  specialize (H (past ++ d)). by destruct (f a (past ++ d)).
Qed.

Lemma post_try (m : M A) h Q :
  post m (fun r d => match r with
                     | Ret a => Q (Ret a) d
                     | Raise e => post (h e) (fun r' d' => Q r' (d ++ d'))
                     end) ->
  post (try_except m h) Q.
Proof.
  intros H past. specialize (H past). unfold try_except.
  destruct (m past) as [[a|e] d]; cbn in *; [done|].
  specialize (H (past ++ d)). by destruct (h e (past ++ d)).
Qed.

End Rules.

Section EffectRules.

Variable w : world.
Context {B : Type}.

Import Agent.

Lemma post_log lvl m (f : unit -> M B) Q :
  post (f tt) (fun r d => Q r (ELog lvl m :: d)) -> post (bind (log lvl m) f) Q.
Proof. intros H. apply post_bind. intros past. cbn. apply H. Qed.

Lemma post_emit e (f : unit -> M B) Q :
  post (f tt) (fun r d => Q r (e :: d)) -> post (bind (emit e) f) Q.
Proof. intros H. apply post_bind. intros past. cbn. apply H. Qed.

Lemma post_invoke c (f : unit -> M B) Q :
  (forall e, Q (Raise e) [ECall c (Raised e)]) ->
  post (f tt) (fun r d => Q r (ECall c Returned :: d)) ->
  post (bind (invoke w c) f) Q.
Proof.
  intros Hr Hk. apply post_bind. intros past. unfold invoke.
  destruct (host_exn w past c); cbn; [apply Hr | apply Hk].
Qed.

Lemma post_reco nd ov (f : option reco_detail -> M B) Q :
  (forall e, Q (Raise e) [ECall (CReco nd ov) (Raised e)]) ->
  (forall r, post (f r) (fun r' d => Q r' (ECall (CReco nd ov) (Recognised r) :: d))) ->
  post (bind (run_recognition w nd ov) f) Q.
Proof.
  intros Hr Hk. apply post_bind. intros past. unfold run_recognition.
  destruct (host_exn w past _); cbn; [apply Hr | apply Hk].
Qed.

Lemma post_sleep ms (f : unit -> M B) Q :
  (forall e, sleep_exn w ms = Some e -> Q (Raise e) []) ->
  (sleep_exn w ms = None -> post (f tt) (fun r d => Q r (ESleep ms :: d))) ->
  post (bind (sleep_ms w ms) f) Q.
Proof.
  intros Hr Hk. apply post_bind. intros past. unfold sleep_ms.
  destruct (sleep_exn w ms) as [e|]; cbn; [by apply Hr | by apply Hk].
Qed.

End EffectRules.

(** One rule at the head of the computation, then the conditions it leaves. *)
Ltac wp_step :=
  lazymatch goal with
  | |- post (try_except _ _) _ => apply post_try
  | |- post (bind (Agent.log _ _) _) _ => apply post_log
  | |- post (bind (emit _) _) _ => apply post_emit
  | |- post (bind (Agent.invoke _ _) _) _ => apply post_invoke; [intros ?|]
  | |- post (bind (Agent.run_recognition _ _ _) _) _ =>
      apply post_reco; [intros ?|intros ?]
  | |- post (bind (Agent.sleep_ms _ _) _) _ => apply post_sleep; [intros ? ?|intros ?]
  | |- post (bind (ret _) _) _ => apply post_bind, post_ret
  | |- post (bind (if ?c then _ else _) _) _ => destruct c eqn:?
  | |- post (ret _) _ => apply post_ret
  | |- post (raise _) _ => apply post_raise
  | |- post (if ?c then _ else _) _ => destruct c eqn:?
  | |- post (match ?c with _ => _ end) _ => destruct c eqn:?
  end; cbv beta iota.

Ltac wp := repeat wp_step.

(** Cases on an index into a list that is known up to its tail. *)
Ltac by_index :=
  repeat match goal with
         | H : (_ :: _) !! ?i = Some _ |- _ => destruct i as [|i]; simplify_eq/=
         end.

Lemma count_app f d1 d2 : count f (d1 ++ d2) = (count f d1 + count f d2)%nat.
Proof. induction d1 as [|e d1 IH]; cbn; [done|]. rewrite IH. lia. Qed.

Lemma step_marks_app d1 d2 : step_marks (d1 ++ d2) = step_marks d1 ++ step_marks d2.
Proof.
  induction d1 as [|e d1 IH]; cbn; [done|].
  destruct e as [lvl m| |]; try done. destruct m; cbn; by rewrite ?IH.
Qed.

Lemma py_range_length lo hi : length (py_range lo hi) = Z.to_nat (hi - lo).
Proof. unfold py_range. by rewrite length_map, length_seq. Qed.

Lemma py_range_lookup lo hi (i : nat) a :
  py_range lo hi !! i = Some a -> a = lo + Z.of_nat i /\ lo + Z.of_nat i < hi.
Proof.
  unfold py_range. rewrite list_lookup_fmap. intros H.
  destruct (seq 0 (Z.to_nat (hi - lo)) !! i) as [j|] eqn:Hj; [|done].
  apply lookup_seq in Hj as [-> Hlt]. cbn in H. simplify_eq. lia.
Qed.

Lemma py_range_empty lo hi : hi <= lo -> py_range lo hi = [].
Proof.
  intros H. unfold py_range. by replace (Z.to_nat (hi - lo)) with 0%nat by lia.
Qed.

Section Facts.

Variable w : world.

Import Agent.

(** *** Parameters *)

Lemma run_unfold cap past :
  run w cap past =
  try_except
    (let* d := lift (load_params w cap) in
     log_header (read_params d) >> run_steps w (read_params d))
    (fun e => log Error (MRunFailed e) >> ret false) past.
Proof. reflexivity. Qed.

(** Writing a default into the mapping where its key is missing changes
    none of the parameters read. *)
Lemma read_params_fill (d : gmap string pyval) key dflt :
  (key, dflt) ∈ [("template_path", PStr default_template); ("wait_delay", PInt 500);
                 ("retry_times", PInt 10); ("retry_interval", PInt 500)] ->
  d !! key = None ->
  read_params (<[key := dflt]> d) = read_params d.
Proof.
  intros Hin Hkey. unfold read_params, get.
  repeat (apply elem_of_cons in Hin as [[= -> ->]|Hin];
          [by rewrite lookup_insert_eq, !lookup_insert_ne, Hkey by done|]).
  by apply elem_of_nil in Hin.
Qed.

(** C3: the parameter object is a JSON string or a mapping; each of the four
    keys may be missing, and a missing key gives the parameter its default:
    template path "common/其他.png", wait delay 500, retry count 10, retry
    interval 500, while a key that is present gives its value.  The steps
    run on the parameters so read, and [run] does on a mapping that lacks a
    key what it does on the mapping with the default written in. *)
Theorem params_optional_with_defaults (cap : pyval) (d : gmap string pyval) :
  load_params w cap = Ret d ->
  (forall d', load_params w (PDict d') = Ret d') /\
  (forall s d', json_loads w s = Ret (PDict d') -> load_params w (PStr s) = Ret d') /\
  template_path (read_params d) = default (PStr "common/其他.png") (d !! "template_path") /\
  wait_delay (read_params d) = default (PInt 500) (d !! "wait_delay") /\
  retry_times (read_params d) = default (PInt 10) (d !! "retry_times") /\
  retry_interval (read_params d) = default (PInt 500) (d !! "retry_interval") /\
  (forall past,
     run w cap past =
     try_except (log_header (read_params d) >> run_steps w (read_params d))
       (fun e => log Error (MRunFailed e) >> ret false) past) /\
  (forall key dflt past,
     (key, dflt) ∈ [("template_path", PStr "common/其他.png"); ("wait_delay", PInt 500);
                    ("retry_times", PInt 10); ("retry_interval", PInt 500)] ->
     d !! key = None ->
     run w (PDict d) past = run w (PDict (<[key := dflt]> d)) past).
Proof.
  intros Hload. repeat split; try done.
  - intros s d' Hs. cbn. by rewrite Hs.
  - intros past. rewrite run_unfold. unfold try_except.
    by rewrite Hload, bind_lift_Ret.
  - intros key dflt past Hin Hkey. rewrite !run_unfold. unfold try_except.
    cbn [load_params]. rewrite !bind_lift_Ret.
    by rewrite (read_params_fill d key dflt Hin Hkey).
Qed.


End Facts.

Lemma params_optional_with_defaults_witness :
  Agent.wait_delay (Agent.read_params {[ "retry_times" := PInt 0 ]}) = PInt 500.
Proof.
  destruct (params_optional_with_defaults Worlds.blank
              (PDict {[ "retry_times" := PInt 0 ]}) {[ "retry_times" := PInt 0 ]})
    as (_ & _ & _ & H & _); [reflexivity | exact H].
Defined.


(** ** One retrying step *)

Section Retry.

Variable w : world.
Variable cfg : Agent.step_cfg.
Variables wd ri : pyval.
Variable n : Z.

Import Agent.

Abbreviation once := (attempt_once w cfg wd ri n).
Abbreviation loop := (for_attempts w cfg wd ri n).

(** The loop, by what one attempt does. *)
Lemma post_loop (I : list Z -> result bool -> list event -> Prop) :
  I [] (Ret false) [] ->
  (forall a rest, post (once a) (fun r d =>
      match r with
      | Ret Next => forall r' d', I rest r' d' -> I (a :: rest) r' (d ++ d')
      | Ret (Return b) => I (a :: rest) (Ret b) d
      | Raise e => I (a :: rest) (Raise e) d
      end)) ->
  forall l, post (loop l) (I l).
Proof.
  intros H0 Hstep l. induction l as [|a rest IH]; intros past; [exact H0|].
  cbn [for_attempts]. specialize (Hstep a rest past). unfold bind.
  destruct (once a past) as [[[|b]|e] d]; cbn in *; [| by rewrite app_nil_r | done].
  specialize (IH (past ++ d)).
  destruct (loop rest (past ++ d)) as [r' d']. by apply Hstep.
Qed.

Ltac attempt_cases I :=
  apply (post_loop I); [| intros a rest; unfold attempt_once, attempt_body; wp ].

Ltac counting := intros; rewrite ?count_app, ?step_marks_app in *; cbn in *; try done; try lia.

Lemma loop_marks l : post (loop l) (fun _ d => step_marks d = []).
Proof.
  attempt_cases (fun (_ : list Z) (_ : result bool) d => step_marks d = []); counting.
Qed.

Lemma loop_reco_count l :
  post (loop l) (fun _ d => (count is_reco d <= length l)%nat).
Proof.
  attempt_cases (fun (l : list Z) (_ : result bool) d => (count is_reco d <= length l)%nat);
    counting.
Qed.

Lemma loop_attempt_count l :
  post (loop l) (fun _ d => (count is_attempt d <= length l)%nat).
Proof.
  attempt_cases (fun (l : list Z) (_ : result bool) d => (count is_attempt d <= length l)%nat);
    counting.
Qed.

(** Recognitions and clicks within the loop. *)
Ltac next_case :=
  lazymatch goal with
  | |- forall _ : result bool, _ => intros r' d' IH
  | |- _ => idtac
  end.

Ltac in_block IH :=
  cbn [app] in *; by_index; cbn;
  try match goal with
      | H1 : found ?r = _, H2 : found ?r = _ |- _ => rewrite H1 in H2; simplify_eq
      end;
  try (by eauto 10); try (by eapply IH).

Lemma loop_click_follows l :
  post (loop l) (fun _ d => click_follows (step_no cfg) d).
Proof.
  attempt_cases (fun (_ : list Z) (_ : result bool) d => click_follows (step_no cfg) d).
  1: by intros i ? ? ? ? ?.
  all: next_case; intros i ? ? ? ? Hi Hf; in_block IH.
Qed.

Lemma loop_click_justified l : post (loop l) (fun _ d => click_justified d).
Proof.
  attempt_cases (fun (_ : list Z) (_ : result bool) d => click_justified d).
  1: by intros i ? ? ? ?.
  all: next_case; intros i ? ? ? Hi; in_block IH.
  all: try (destruct (IH _ _ _ _ Hi) as (j & ? & ? & ? & ? & -> & ? & ? & ? & ?);
            by eexists (S _); eauto 10).
  all: by eexists 3%nat; eauto 10.
Qed.

Lemma loop_miss_logged l :
  post (loop l) (fun _ d => miss_logged (step_no cfg) d).
Proof.
  attempt_cases (fun (_ : list Z) (_ : result bool) d => miss_logged (step_no cfg) d).
  1: by intros i ? ? ? ?.
  all: next_case; intros i ? ? ? Hi Hf; in_block IH.
Qed.



(** When no recognition finds the target and the retry interval is one
    [time.sleep] takes, the loop goes through all its attempts and ends with
    [False].  Only the last attempt may be numbered [n] or more. *)
Lemma loop_exhausts l :
  sleep_exn w ri = None ->
  post (loop l) (fun r d =>
    all_miss d ->
    r = Ret false /\
    ((forall (i : nat) a, l !! i = Some a -> (S i < length l)%nat -> a < n) ->
     count is_attempt d = length l)).
Proof.
  intros Hri.
  attempt_cases (fun (l : list Z) (r : result bool) d =>
    all_miss d ->
    r = Ret false /\
    ((forall (i : nat) a, l !! i = Some a -> (S i < length l)%nat -> a < n) ->
     count is_attempt d = length l)).
  1: done.
  all: next_case; try congruence; unfold all_miss.
  all: rewrite ?Forall_app, ?Forall_cons; cbn [missed]; intros Hm; destruct_and?;
    try congruence.
  all: try (destruct (IH ltac:(done)) as [-> Hcount]; split; [done|];
            intros Hl; rewrite ?count_app, Hcount; [cbn; lia|];
            intros i a' Hi Hlt; apply (Hl (S i) a' Hi); cbn; lia).
  all: split; [done|]; intros Hl; destruct rest as [|a' rest]; [done|];
    specialize (Hl 0%nat a eq_refl ltac:(cbn; lia)); lia.
Qed.



End Retry.

(** ** Steps 2 to 5 *)

Section Steps.

Variable w : world.

Import Agent.

Lemma found_Some r b :
  found r = Some b <-> r = Some (RecoDetail (Some b)) /\ rw b <> 0.
Proof.
  unfold found. destruct r as [[[b'|]]|]; try (split; [done | by intros [? _]]).
  destruct (rw b' =? 0) eqn:Hw.
  - apply Z.eqb_eq in Hw. split; [done|]. intros [[= ->] ?]. lia.
  - apply Z.eqb_neq in Hw. split; [by intros [= ->] | by intros [[= ->] _]].
Qed.

(** The three results the code takes for a miss. *)
Lemma found_None r :
  found r = None <->
  r = None \/ r = Some (RecoDetail None) \/
  exists b, r = Some (RecoDetail (Some b)) /\ rw b = 0.
Proof.
  unfold found. destruct r as [[[b'|]]|].
  - destruct (rw b' =? 0) eqn:Hw.
    + apply Z.eqb_eq in Hw. split; [eauto|done].
    + apply Z.eqb_neq in Hw. split; [done|].
      intros [?|[?|(b & [= ->] & ?)]]; done.
  - split; eauto.
  - split; eauto.
Qed.

Lemma retry_step_int cfg wd rt ri n past :
  as_int rt = Some n ->
  retry_step w cfg wd rt ri past =
  (outcome (for_attempts w cfg wd ri n (py_range 1 (n + 1))
              (past ++ [ELog Info (MStep (step_no cfg))])),
   ELog Info (MStep (step_no cfg)) ::
   added (for_attempts w cfg wd ri n (py_range 1 (n + 1))
            (past ++ [ELog Info (MStep (step_no cfg))]))).
Proof. intros H. unfold retry_step, log. by rewrite bind_emit, H. Qed.

Lemma retry_step_not_int cfg wd rt ri past :
  as_int rt = None ->
  retry_step w cfg wd rt ri past =
  (Raise TypeError, [ELog Info (MStep (step_no cfg))]).
Proof. intros H. unfold retry_step, log. by rewrite bind_emit, H. Qed.

(** Each of the steps 2 to 5 is the common text with its own settings. *)
Lemma step_is_retry p k :
  (2 <= k <= 5)%nat ->
  exists cfg,
    step_no cfg = k /\
    step w p k = retry_step w cfg (wait_delay p) (retry_times p) (retry_interval p).
Proof.
  intros Hk.
  destruct k as [|[|[|[|[|[|k]]]]]]; try lia; cbn [step]; eexists (StepCfg _ _ _ _);
    (split; [|reflexivity]); reflexivity.
Qed.

(** The events of a retrying step: its first log line, then the loop's. *)
Lemma retry_step_events cfg wd rt ri past (Q : list event -> Prop) :
  Q [] ->
  (forall l, post (for_attempts w cfg wd ri (default 0 (as_int rt)) l)
               (fun _ d => Q d)) ->
  exists d, added (retry_step w cfg wd rt ri past)
            = ELog Info (MStep (step_no cfg)) :: d /\ Q d.
Proof.
  intros Hnil Hloop. destruct (as_int rt) as [n|] eqn:Hn.
  - rewrite (retry_step_int _ _ _ _ n) by done. eexists; split; [done|]. apply Hloop.
  - rewrite retry_step_not_int by done. eauto.
Qed.

End Steps.

Section Clicks.

Variable w : world.

Import Agent.

Lemma lookup_behind_log lvl m (d : list event) (i : nat) e :
  (ELog lvl m :: d) !! i = Some e ->
  (forall lvl' m', e <> ELog lvl' m') ->
  exists j : nat, i = S j /\ d !! j = Some e.
Proof.
  intros Hi He. destruct i as [|j]; cbn in Hi; [|eauto].
  simplify_eq. by destruct (He lvl m).
Qed.

Lemma step_clicks p k past :
  (2 <= k <= 5)%nat ->
  exists d,
    added (step w p k past) = ELog Info (MStep k) :: d /\
    click_follows k d /\ click_justified d /\ miss_logged k d.
Proof.
  intros Hk. destruct (step_is_retry w p k Hk) as (cfg & <- & ->).
  apply (retry_step_events w cfg _ _ _ past
           (fun d => click_follows (step_no cfg) d /\ click_justified d /\
                     miss_logged (step_no cfg) d)).
  - split; [|split]; intros j; intros; by rewrite lookup_nil in *.
  - intros l past'. split; [|split];
      [apply loop_click_follows | apply loop_click_justified | apply loop_miss_logged].
Qed.

(** C5: in each of steps 2 to 5, a recognition that returns a box
    (x, y, w, h) of width other than zero is followed (after its log line)
    by the click at (x + w // 2, y + h // 2); and every click of the step is
    such a click: it comes two events after a recognition that returned a
    box, at the centre of that box. *)
Theorem click_at_box_centre p k past :
  (2 <= k <= 5)%nat ->
  let d := added (step w p k past) in
  (forall (i : nat) nd ov x y width height,
     d !! i = Some (ECall (CReco nd ov)
                      (Recognised (Some (RecoDetail (Some (Rect x y width height)))))) ->
     width <> 0 ->
     exists rep,
       d !! S (S i) = Some (ECall (CClick (x + width / 2) (y + height / 2)) rep)) /\
  (forall (i : nat) cx cy rep,
     d !! i = Some (ECall (CClick cx cy) rep) ->
     exists (j : nat) nd ov x y width height,
       i = S (S j) /\
       d !! j = Some (ECall (CReco nd ov)
                        (Recognised (Some (RecoDetail (Some (Rect x y width height)))))) /\
       cx = x + width / 2 /\ cy = y + height / 2).
Proof.
  intros Hk d. subst d.
  destruct (step_clicks p k past Hk) as (d & -> & Hfol & Hjust & _). split.
  - intros i nd ov x y width height Hi Hw.
    apply lookup_behind_log in Hi as (j & -> & Hj); [|done].
    destruct (Hfol j nd ov _ (Rect x y width height) Hj) as [_ [rep Hc]].
    { by apply found_Some. }
    by exists rep.
  - intros i cx cy rep Hi.
    apply lookup_behind_log in Hi as (j & -> & Hj); [|done].
    destruct (Hjust j cx cy rep Hj) as (j' & nd & ov & r & b & -> & Hr & Hf & -> & ->).
    apply found_Some in Hf as [-> _]. destruct b as [x y width height].
    by exists (S j'), nd, ov, x, y, width, height.
Qed.

(** C9: in each of steps 2 to 5, a recognition result that is missing, has
    no box, or has a box of width zero is followed by the warning of a failed
    attempt and not by a click; and the recognition behind every click
    returned a box whose width is not zero. *)
Theorem no_click_from_degenerate_result p k past :
  (2 <= k <= 5)%nat ->
  let d := added (step w p k past) in
  (forall (i : nat) nd ov r,
     d !! i = Some (ECall (CReco nd ov) (Recognised r)) ->
     r = None \/ r = Some (RecoDetail None) \/
       (exists b, r = Some (RecoDetail (Some b)) /\ rw b = 0) ->
     (exists a, d !! S i = Some (ELog Warning (MNotFound k a))) /\
     forall x y rep, d !! S (S i) <> Some (ECall (CClick x y) rep)) /\
  (forall (i : nat) x y rep,
     d !! i = Some (ECall (CClick x y) rep) ->
     exists (j : nat) nd ov b,
       i = S (S j) /\
       d !! j = Some (ECall (CReco nd ov) (Recognised (Some (RecoDetail (Some b))))) /\
       rw b <> 0).
Proof.
  intros Hk d. subst d.
  destruct (step_clicks p k past Hk) as (d & -> & _ & Hjust & Hmiss). split.
  - intros i nd ov r Hi Hr. apply found_None in Hr.
    apply lookup_behind_log in Hi as (j & -> & Hj); [|done]. split.
    + destruct (Hmiss j nd ov r Hj Hr) as [a Ha]. by exists a.
    + intros x y rep Hc. cbn in Hc.
      destruct (Hjust _ x y rep Hc) as (j' & ? & ? & r' & b & [= <-] & Hr' & Hf & _).
      rewrite Hj in Hr'. simplify_eq; congruence.
  - intros i x y rep Hi.
    apply lookup_behind_log in Hi as (j & -> & Hj); [|done].
    destruct (Hjust j x y rep Hj) as (j' & nd & ov & r & b & -> & Hr & Hf & _).
    apply found_Some in Hf as [-> Hw]. by exists (S j'), nd, ov, b.
Qed.

End Clicks.

Lemma click_at_box_centre_witness :
  exists rep,
    added (Agent.step Worlds.ready (Agent.read_params ∅) 2 []) !! 6%nat
    = Some (ECall (CClick 115 50) rep).
Proof.
  destruct (click_at_box_centre Worlds.ready (Agent.read_params ∅) 2 []) as [H _];
    [lia|].
  apply (H 4%nat "OCR_Settings" None 100 40 31 21); [reflexivity | lia].
Defined.

Lemma no_click_from_degenerate_result_witness :
  exists a,
    added (Agent.step Worlds.blank (Agent.read_params ∅) 5 []) !! 5%nat
    = Some (ELog Warning (MNotFound 5 a)).
Proof.
  destruct (no_click_from_degenerate_result Worlds.blank (Agent.read_params ∅) 5 [])
    as [H _]; [lia|].
  apply (H 4%nat "OCR_Confirm" None None); [reflexivity | by left].
Defined.

(** ** Chaining *)

Section Chain.

Implicit Types (steps : list (M bool)) (fin : M bool) (past : list event).

Lemma reached_0 steps past : reached steps past 0 = past.
Proof. by destruct steps. Qed.

Lemma chain_cons s steps fin past :
  chain (s :: steps) fin past =
  match s past with
  | (Ret true, d) =>
      (outcome (chain steps fin (past ++ d)), d ++ added (chain steps fin (past ++ d)))
  | (Ret false, d) => (Ret false, d)
  | (Raise e, d) => (Raise e, d)
  end.
Proof.
  cbn [chain]. unfold bind. destruct (s past) as [[[|]|e] d]; cbn; try done.
  - by destruct (chain steps fin (past ++ d)).
  - by rewrite app_nil_r.
Qed.

(** All steps return [True]: every step ran, then the end of [run]. *)
Lemma chain_all_true steps fin past :
  (forall (j : nat) s, steps !! j = Some s ->
     outcome (s (reached steps past j)) = Ret true) ->
  outcome (chain steps fin past)
  = outcome (fin (reached steps past (length steps))) /\
  past ++ added (chain steps fin past)
  = reached steps past (length steps)
    ++ added (fin (reached steps past (length steps))).
Proof.
  revert past. induction steps as [|s steps IH]; intros past H; [done|].
  rewrite chain_cons. pose proof (H 0%nat s eq_refl) as H0. cbn in H0.
  cbn [reached length]. destruct (s past) as [[[|]|e] d] eqn:Hs; cbn in H0; try done.
  cbn [outcome added fst snd].
  destruct (IH (past ++ d)) as [Ho Ha].
  { intros j s' Hj. specialize (H (S j) s' Hj). cbn in H. by rewrite Hs in H. }
  split; [done|]. by rewrite app_assoc.
Qed.

(** The first step that does not return [True] ends the chain: nothing of
    a later step is added. *)
Lemma chain_first_failure steps fin past (j : nat) s :
  steps !! j = Some s ->
  (forall (i : nat) s', (i < j)%nat -> steps !! i = Some s' ->
     outcome (s' (reached steps past i)) = Ret true) ->
  outcome (s (reached steps past j)) <> Ret true ->
  outcome (chain steps fin past)
  = match outcome (s (reached steps past j)) with
    | Raise e => Raise e
    | Ret _ => Ret false
    end /\
  past ++ added (chain steps fin past) = reached steps past (S j).
Proof.
  revert past j. induction steps as [|s0 steps IH]; intros past j Hj Hbefore Hfail;
    [done|].
  rewrite chain_cons. destruct j as [|j]; cbn in Hj.
  - simplify_eq. cbn in *.
    destruct (s past) as [[[|]|e] d]; cbn in *; rewrite ?reached_0;
      [congruence | done | done].
  - pose proof (Hbefore 0%nat s0 ltac:(lia) eq_refl) as H0. cbn in H0.
    cbn [reached] in *. destruct (s0 past) as [[[|]|e] d] eqn:Hs; cbn in H0; try done.
    cbn [outcome added fst snd] in *.
    destruct (IH (past ++ d) j Hj) as [Ho Ha]; [| done |].
    { intros i s' Hi Hs'. apply (Hbefore (S i) s'); [lia | done]. }
    split; [done|]. by rewrite app_assoc.
Qed.

Lemma chain_true_inv steps fin past :
  outcome (chain steps fin past) = Ret true ->
  forall (j : nat) s, steps !! j = Some s ->
    outcome (s (reached steps past j)) = Ret true.
Proof.
  revert past. induction steps as [|s0 steps IH]; intros past H j s Hj; [done|].
  rewrite chain_cons in H.
  destruct (s0 past) as [[[|]|e] d] eqn:Hs; cbn in H; try done.
  destruct j as [|j]; cbn in Hj |- *.
  - simplify_eq. by rewrite Hs.
  - rewrite Hs. cbn. by apply IH.
Qed.

End Chain.

(** ** [run] *)

Section Run.

Variable w : world.

Import Agent.

Lemma step1_marks wd : post (_step1_press_esc w wd) (fun _ d => step_marks d = [1%nat]).
Proof. unfold _step1_press_esc. wp; done. Qed.

Lemma step1_returns wd : post (_step1_press_esc w wd) (fun r _ => exists b, r = Ret b).
Proof. unfold _step1_press_esc. wp; eauto. Qed.

(** Step 1 asks for no recognition and makes no attempt in the sense of the
    later steps; its third event is the key press. *)
Lemma step1_events wd :
  post (_step1_press_esc w wd) (fun _ d =>
    count is_reco d = 0%nat /\ count is_attempt d = 0%nat /\
    count is_click d = 0%nat /\
    exists rep, d !! 2%nat = Some (ECall (CClickKey 27) rep)).
Proof. unfold _step1_press_esc. wp; cbn; eauto 10. Qed.

Lemma step_marks_of_step p k past :
  (1 <= k <= 5)%nat -> step_marks (added (step w p k past)) = [k].
Proof.
  intros Hk. destruct (decide (k = 1%nat)) as [->|Hne].
  - apply step1_marks.
  - destruct (step_is_retry w p k ltac:(lia)) as (cfg & <- & ->).
    destruct (retry_step_events w cfg (wait_delay p) (retry_times p) (retry_interval p)
                past (fun d => step_marks d = [])) as (d & -> & Hd); [done | |].
    + intros l. apply loop_marks.
    + cbn. by rewrite Hd.
Qed.

Lemma reached_marks p ks past (j : nat) :
  Forall (fun k => (1 <= k <= 5)%nat) ks ->
  step_marks (reached (map (step w p) ks) past j) = step_marks past ++ take j ks.
Proof.
  intros Hks. revert past j.
  induction Hks as [|k ks Hk Hks IH]; intros past j.
  - destruct j; cbn; by rewrite app_nil_r.
  - destruct j as [|j]; cbn; [by rewrite app_nil_r|].
    rewrite IH, step_marks_app, step_marks_of_step by done. by rewrite <- app_assoc.
Qed.

Lemma the_steps_lookup p (j : nat) :
  (j < 5)%nat -> the_steps w p !! j = Some (step w p (S j)).
Proof. intros Hj. by destruct j as [|[|[|[|[|j]]]]]; try lia. Qed.

Lemma the_steps_lookup_inv p (j : nat) s :
  the_steps w p !! j = Some s -> (j < 5)%nat /\ s = step w p (S j).
Proof.
  intros H. destruct j as [|[|[|[|[|j]]]]]; cbn in H; simplify_eq; split; (lia || done).
Qed.

Lemma run_steps_chain p : run_steps w p = chain (the_steps w p) finish.
Proof. reflexivity. Qed.

Lemma log_header_events p past : log_header p past = (Ret tt, header p).
Proof. reflexivity. Qed.

(** [run] once the parameters are read: the header, the chain of steps, and
    the handler if an exception came out of a step. *)
Lemma run_loaded cap d past :
  load_params w cap = Ret d ->
  let p := read_params d in
  let x := chain (the_steps w p) finish (past ++ header p) in
  run w cap past =
  match outcome x with
  | Ret b => (Ret b, header p ++ added x)
  | Raise e => (Ret false, header p ++ added x ++ [ELog Error (MRunFailed e)])
  end.
Proof.
  intros Hload p x. rewrite run_unfold. unfold try_except.
  rewrite Hload, bind_lift_Ret.
  rewrite (bind_Ret _ _ _ _ _ (log_header_events (read_params d) past)).
  rewrite run_steps_chain. fold p. fold x.
  by destruct x as [[b|e] dx].
Qed.

Lemma run_not_loaded cap e past :
  load_params w cap = Raise e ->
  run w cap past = (Ret false, [ELog Error (MRunFailed e)]).
Proof.
  intros Hload. rewrite run_unfold. unfold try_except.
  by rewrite Hload, bind_lift_Raise.
Qed.

Lemma take_steps (j : nat) :
  (j <= 5)%nat -> take j [1; 2; 3; 4; 5]%nat = seq 1 j.
Proof. intros Hj. by destruct j as [|[|[|[|[|[|j]]]]]]; try lia. Qed.

Lemma before_marks p past (j : nat) :
  (j <= 5)%nat ->
  step_marks (reached (the_steps w p) (past ++ header p) j) = step_marks past ++ seq 1 j.
Proof.
  intros Hj. unfold the_steps. rewrite reached_marks.
  - by rewrite step_marks_app, app_nil_r, take_steps.
  - repeat constructor; lia.
Qed.

(** C1: [run] enters the steps in the order 1, 2, 3, 4, 5, each in the past
    the steps before it left; it returns [True] exactly when all five
    return [True]; and the first step that does not return [True] makes it
    return [False] with nothing added after that step's events but, when the
    step raised, the error line of [run]'s handler: no later step is
    entered.  When the parameters cannot be read no step is entered. *)
Theorem run_chains_five_steps cap past :
  (forall e, load_params w cap = Raise e ->
     outcome (run w cap past) = Ret false /\
     step_marks (added (run w cap past)) = []) /\
  (forall d, load_params w cap = Ret d ->
     let p := read_params d in
     let before (j : nat) := reached (the_steps w p) (past ++ header p) j in
     let ok (j : nat) := outcome (step w p (S j) (before j)) = Ret true in
     (outcome (run w cap past) = Ret true <-> forall j, (j < 5)%nat -> ok j) /\
     (outcome (run w cap past) = Ret true ->
        step_marks (added (run w cap past)) = [1; 2; 3; 4; 5]%nat /\
        past ++ added (run w cap past)
        = before 5%nat ++ [ELog Info MRunDone; ELog Info MRule]) /\
     (forall j, (j < 5)%nat -> (forall i, (i < j)%nat -> ok i) -> ~ ok j ->
        outcome (run w cap past) = Ret false /\
        step_marks (added (run w cap past)) = seq 1 (S j) /\
        (past ++ added (run w cap past) = before (S j) \/
         exists e, past ++ added (run w cap past)
                   = before (S j) ++ [ELog Error (MRunFailed e)]))).
Proof.
  split.
  { intros e He. by rewrite (run_not_loaded _ _ _ He). }
  intros d Hload p before ok. rewrite (run_loaded _ _ _ Hload). fold p.
  set (x := chain (the_steps w p) finish (past ++ header p)).
  assert (Hall : (forall j, (j < 5)%nat -> ok j) ->
            outcome x = Ret true /\
            (past ++ header p) ++ added x
            = before 5%nat ++ [ELog Info MRunDone; ELog Info MRule]).
  { intros Hok. apply (chain_all_true (the_steps w p) finish (past ++ header p)).
    intros j s Hj. apply the_steps_lookup_inv in Hj as [Hlt ->]. by apply Hok. }
  assert (Hinv : outcome x = Ret true -> forall j, (j < 5)%nat -> ok j).
  { intros Hx j Hj.
    apply (chain_true_inv _ _ _ Hx j). by apply the_steps_lookup. }
  assert (Hmarks : forall (j : nat) dx tail,
            (j <= 5)%nat -> step_marks tail = [] ->
            (past ++ header p) ++ dx = before j ++ tail ->
            step_marks (header p ++ dx) = seq 1 j).
  { intros j dx tail Hj Htail Heq.
    apply (f_equal step_marks) in Heq.
    rewrite <- app_assoc, !step_marks_app in Heq. unfold before in Heq.
    rewrite before_marks, Htail, app_nil_r in Heq by done.
    apply app_inv_head in Heq. by rewrite step_marks_app. }
  split; [|split].
  - split.
    + intros Hrun. apply Hinv. by destruct (outcome x) as [[|]|e].
    + intros Hok. destruct (Hall Hok) as [-> _]. done.
  - intros Hrun. assert (Hx : outcome x = Ret true) by by destruct (outcome x) as [[|]|e].
    destruct (Hall (Hinv Hx)) as [_ Hev]. rewrite Hx. cbn [added snd]. split.
    + by apply (Hmarks 5%nat (added x) [ELog Info MRunDone; ELog Info MRule]).
    + by rewrite app_assoc.
  - intros j Hj Hbefore Hfail.
    destruct (chain_first_failure (the_steps w p) finish (past ++ header p) j
                (step w p (S j))) as [Ho Hev].
    { by apply the_steps_lookup. }
    { intros i s' Hi Hs'. apply the_steps_lookup_inv in Hs' as [_ ->].
      by apply Hbefore. }
    { exact Hfail. }
    fold x in Ho, Hev. fold (before j) in Ho. fold (before (S j)) in Hev.
    destruct (outcome x) as [b|e] eqn:Hx; cbn [outcome added fst snd].
    + destruct (outcome (step w p (S j) (before j))) as [b'|e']; [|done].
      simplify_eq. split; [done|]. split.
      * apply (Hmarks (S j) (added x) []); [lia | done | by rewrite app_nil_r].
      * left. by rewrite app_assoc.
    + split; [done|]. split.
      * rewrite app_assoc, step_marks_app, app_nil_r.
        apply (Hmarks (S j) (added x) []); [lia | done | by rewrite app_nil_r].
      * right. exists e. by rewrite !app_assoc, Hev.
Qed.

End Run.

(** ** Bounds and exceptions *)

Section Bounds.

Variable w : world.

Import Agent.



Lemma range_only_last_reaches n (i : nat) a :
  py_range 1 (n + 1) !! i = Some a ->
  (S i < length (py_range 1 (n + 1)))%nat -> a < n.
Proof.
  intros Hi Hlen. rewrite py_range_length in Hlen.
  apply py_range_lookup in Hi as [-> _]. lia.
Qed.

Lemma range_length n : length (py_range 1 (n + 1)) = Z.to_nat n.
Proof. rewrite py_range_length. f_equal. lia. Qed.

(** The events and the outcome of a retrying step with an integer count. *)
Lemma step_loop p k n past :
  (2 <= k <= 5)%nat -> as_int (retry_times p) = Some n ->
  exists cfg past',
    step_no cfg = k /\
    let y := for_attempts w cfg (wait_delay p) (retry_interval p) n
               (py_range 1 (n + 1)) past' in
    step w p k past = (outcome y, ELog Info (MStep k) :: added y).
Proof.
  intros Hk Hn. destruct (step_is_retry w p k Hk) as (cfg & <- & ->).
  exists cfg, (past ++ [ELog Info (MStep (step_no cfg))]). split; [done|].
  by apply retry_step_int.
Qed.


(** C6, amended: with an integer retry count n, each of steps 2 to 5 makes at
    most n attempts and at most n recognitions (the loop runs over the finite
    [range(1, n + 1)], so the step always ends); and when no recognition finds
    the target and [time.sleep] takes the retry interval, the step makes all
    n attempts and returns [False]. *)
Theorem retry_is_bounded p k n past :
  (2 <= k <= 5)%nat -> as_int (retry_times p) = Some n ->
  let x := step w p k past in
  (count is_reco (added x) <= Z.to_nat n)%nat /\
  (count is_attempt (added x) <= Z.to_nat n)%nat /\
  (sleep_exn w (retry_interval p) = None -> all_miss (added x) ->
   outcome x = Ret false /\ count is_attempt (added x) = Z.to_nat n).
Proof.
  intros Hk Hn x. subst x.
  destruct (step_loop p k n past Hk Hn) as (cfg & past' & <- & Hstep).
  cbv zeta in Hstep. rewrite Hstep. cbn [outcome added fst snd count is_reco is_attempt].
  pose proof (loop_reco_count w cfg (wait_delay p) (retry_interval p) n
                (py_range 1 (n + 1)) past') as Hreco.
  pose proof (loop_attempt_count w cfg (wait_delay p) (retry_interval p) n
                (py_range 1 (n + 1)) past') as Hatt.
  cbv beta in Hreco, Hatt. rewrite range_length in Hreco, Hatt.
  split; [done|]. split; [done|]. intros Hri Hmiss.
  apply Forall_cons in Hmiss as [_ Hmiss].
  destruct (loop_exhausts w cfg (wait_delay p) (retry_interval p) n
              (py_range 1 (n + 1)) Hri past' Hmiss) as [Ho Hc].
  split; [done|]. rewrite Hc, ?range_length; [done|].
  apply range_only_last_reaches.
Qed.

(** C8: with a retry count that is an integer n <= 0, each of steps 2 to 5
    returns [False] having only logged its first line (no recognition, no
    click, no sleep), and [run] returns [False]; step 1 has run before: the
    key press of ESC is the tenth event of [run], after the seven lines of
    the header and two of step 1, and [run] adds no recognition and no
    click. *)
Theorem nonpositive_retry_count cap d n past :
  load_params w cap = Ret d ->
  retry_times (read_params d) = PInt n -> n <= 0 ->
  let p := read_params d in
  (forall k past', (2 <= k <= 5)%nat ->
     step w p k past' = (Ret false, [ELog Info (MStep k)])) /\
  outcome (run w cap past) = Ret false /\
  (exists rep, added (run w cap past) !! 9%nat = Some (ECall (CClickKey 27) rep)) /\
  count is_reco (added (run w cap past)) = 0%nat /\
  count is_click (added (run w cap past)) = 0%nat.
Proof.
  intros Hload Hrt Hn p.
  assert (Hstep : forall k past', (2 <= k <= 5)%nat ->
            step w p k past' = (Ret false, [ELog Info (MStep k)])).
  { intros k past' Hk.
    destruct (step_loop p k n past' Hk) as (cfg & past'' & <- & ->).
    { subst p. by rewrite Hrt. }
    by rewrite py_range_empty by lia. }
  split; [done|].
  rewrite (run_loaded _ _ _ _ Hload). fold p. unfold the_steps. cbn [map].
  rewrite chain_cons.
  destruct (step1_returns w (wait_delay p) (past ++ header p)) as [b Hb].
  destruct (step1_events w (wait_delay p) (past ++ header p))
    as (Hreco & _ & Hclick & rep & Hkey).
  change (_step1_press_esc w (wait_delay p)) with (step w p 1) in Hb, Hreco, Hclick, Hkey.
  destruct (step w p 1 (past ++ header p)) as [r d1].
  cbn in Hb, Hreco, Hclick, Hkey. subst r.
  destruct b.
  - rewrite chain_cons, (Hstep 2%nat) by lia. cbn [outcome added fst snd].
    split; [done|]. split; [|split].
    + exists rep. cbn. by apply lookup_app_l_Some.
    + rewrite !count_app, Hreco. done.
    + rewrite !count_app, Hclick. done.
  - cbn [outcome added fst snd]. split; [done|]. split; [|split].
    + exists rep. done.
    + by rewrite !count_app, Hreco.
    + by rewrite !count_app, Hclick.
Qed.

End Bounds.

(** ** Exceptions *)

Section Exceptions.

Variable w : world.

Import Agent.








End Exceptions.

(** ** The installer *)

Lemma all_miss_check d : forallb missedb d = true -> all_miss d.
Proof.
  intros H. apply Forall_forall. intros e He.
  apply list_elem_of_In in He.
  pose proof (proj1 (forallb_forall missedb d) H e He) as Hb.
  destruct e as [| [| | |nd ov|] [| |r] |]; try done.
  cbn in *. by destruct (Agent.found r).
Qed.

Section Installer.

Variable E : Install.env.

Import Install.

Lemma version_cases argv :
  version argv =
  match argv with
  | _ :: arg :: _ => if String.eqb arg EmptyString then "v0.0.1" else arg
  | _ => "v0.0.1"
  end.
Proof. by destruct argv as [|prog [|arg rest]]. Qed.

(** C7, amended: when [install_resource] returns, the manifest it wrote is
    the manifest it loaded (the copy of [assets/interface.json]) with the
    field "version" set and every other field as loaded; the version is the
    argument when one is given and is not empty, and "v0.0.1" when none is
    given or the one given is the empty string. *)
Theorem install_sets_version argv fs fs' :
  install_resource E argv fs = Ret fs' ->
  (exists fs1 fs2 text d,
     configure_ocr_model E fs = Ret fs1 /\
     copytree "assets/resource" "install/resource" fs1 = Ret fs2 /\
     fs2 !! "assets/interface.json" = Some text /\
     jsonc_load E text = Ret (PDict d) /\
     let written := <["version" := PStr (version argv)]> d in
     fs' = <["install/interface.json" := jsonc_dump E (PDict written)]>
             (<["install/interface.json" := text]> fs2) /\
     written !! "version" = Some (PStr (version argv)) /\
     forall key, key <> "version" -> written !! key = d !! key) /\
  ((length argv <= 1)%nat -> version argv = "v0.0.1") /\
  (forall prog arg rest, argv = prog :: arg :: rest ->
     (arg <> EmptyString -> version argv = arg) /\
     (arg = EmptyString -> version argv = "v0.0.1")).
Proof.
  intros H. split; [|split].
  - unfold install_resource, and_then in H.
    destruct (configure_ocr_model E fs) as [fs1|] eqn:H1; [|done].
    destruct (copytree _ _ fs1) as [fs2|] eqn:H2; [|done].
    unfold copy2 in H. destruct (fs2 !! "assets/interface.json") as [text|] eqn:H3; [|done].
    rewrite lookup_insert_eq in H. cbn in H.
    destruct (jsonc_load E text) as [[| | | | | |d]|] eqn:H4; try done.
    cbn in H. simplify_eq.
    exists fs1, fs2, text, d. repeat split; try done.
    + by rewrite lookup_insert_eq.
    + intros key Hkey. by rewrite lookup_insert_ne.
  - intros Hlen. rewrite version_cases. by destruct argv as [|prog [|arg rest]]; cbn in *; try lia.
  - intros prog arg rest ->. rewrite version_cases. split.
    + intros Harg. by destruct (String.eqb_spec arg EmptyString).
    + by intros ->.
Qed.

(** When the manifest is there and is a mapping, [install_resource]
    returns. *)
Lemma install_resource_runs argv fs fs1 fs2 text d :
  configure_ocr_model E fs = Ret fs1 ->
  copytree "assets/resource" "install/resource" fs1 = Ret fs2 ->
  fs2 !! "assets/interface.json" = Some text ->
  jsonc_load E text = Ret (PDict d) ->
  install_resource E argv fs =
  Ret (<["install/interface.json" :=
           jsonc_dump E (PDict (<["version" := PStr (version argv)]> d))]>
         (<["install/interface.json" := text]> fs2)).
Proof.
  intros H1 H2 H3 H4. unfold install_resource, and_then, copy2.
  rewrite H1, H2, H3, lookup_insert_eq. cbn. by rewrite H4.
Qed.

End Installer.

(** The checkout of [Worlds] is one [copytree] can work on. *)
Lemma checkout_copies :
  exists fs2,
    Install.copytree "assets/resource" "install/resource" Worlds.checkout = Ret fs2 /\
    fs2 !! "assets/interface.json" = Some "{name: MaaDuet}".
Proof.
  unfold Install.copytree. destruct (omap _ _) as [|file files] eqn:Hc.
  - apply (f_equal length) in Hc. vm_compute in Hc. done.
  - eexists. split; [done|]. rewrite <- Hc. vm_compute. reflexivity.
Qed.

(** ** The theorems at work *)

Import Agent Worlds.

Lemma run_chains_five_steps_witness :
  outcome (run ready PNone []) = Ret true.
Proof.
  destruct (run_chains_five_steps ready PNone []) as [_ H].
  destruct (H ∅ eq_refl) as [[_ Hall] _]. apply Hall.
  intros j Hj. destruct j as [|[|[|[|[|j]]]]]; [reflexivity .. | lia].
Defined.





(** C6 as stated fails for step 2: nothing is recognised, two attempts are
    allowed, and the sleep of -1 ms after the first one is refused, first in
    the [try] and then in the handler: the step makes one attempt and raises
    instead of returning [False]. *)
Lemma step2_raises_before_exhaustion :
  all_miss (added (step blank hasty 2 [])) /\
  outcome (step blank hasty 2 []) = Raise ValueError /\
  retry_times hasty = PInt 2 /\
  count is_attempt (added (step blank hasty 2 [])) = 1%nat.
Proof.
  split; [|by vm_compute].
  assert (Hev : added (step blank hasty 2 []) =
    [ELog Info (MStep 2); ELog Info (MAttempt 2 1); ECall CScreencap Returned;
     ECall CCachedImage Returned;
     ECall (CReco "OCR_Settings" None) (Recognised None);
     ELog Warning (MNotFound 2 1); ELog Info (MWaitRetry 2);
     ELog Error (MAttemptFailed 2 1 ValueError)]) by by vm_compute.
  rewrite Hev. by repeat constructor.
Qed.

Lemma retry_is_bounded_witness :
  outcome (step blank defaults 2 []) = Ret false /\
  count is_attempt (added (step blank defaults 2 [])) = 10%nat.
Proof.
  destruct (retry_is_bounded blank defaults 2 10 []) as (_ & _ & H);
    [lia | reflexivity |].
  apply H; [reflexivity|]. apply all_miss_check. vm_compute. reflexivity.
Defined.

(** C7 as stated fails for an empty argument: [python install.py ''] leaves
    "v0.0.1" in the manifest, not the argument. *)
Lemma empty_version_argument_is_dropped :
  Install.version ["install.py"; EmptyString] = "v0.0.1" /\
  ["install.py"; EmptyString] !! 1%nat = Some EmptyString /\
  Install.version ["install.py"; EmptyString] <> EmptyString.
Proof. by vm_compute. Qed.

Lemma install_sets_version_witness :
  Install.version ["install.py"; "v1.2.0"] = "v1.2.0".
Proof.
  destruct checkout_copies as (fs2 & Hcopy & Htext).
  pose proof (install_resource_runs packer ["install.py"; "v1.2.0"] checkout
                checkout fs2 _ {[ "name" := PStr "MaaDuet" ]}
                eq_refl Hcopy Htext eq_refl) as Hrun.
  destruct (install_sets_version packer ["install.py"; "v1.2.0"] checkout _ Hrun)
    as (_ & _ & H).
  destruct (H "install.py" "v1.2.0" [] eq_refl) as [Hv _]. by apply Hv.
Defined.

Lemma nonpositive_retry_count_witness :
  outcome (run ready (PDict {[ "retry_times" := PInt 0 ]}) []) = Ret false.
Proof.
  destruct (nonpositive_retry_count ready (PDict {[ "retry_times" := PInt 0 ]})
              {[ "retry_times" := PInt 0 ]} 0 []) as (_ & H & _);
    [reflexivity | reflexivity | lia | exact H].
Defined.
